(** * mapper: opaque Cgo handles for Go values

    A shallow embedding of [mapper.go] (package [mapper]) and the
    properties of its three methods [New], [Get] and [Delete].

    The package stores Go values in a [sync.Map] keyed by the address of
    a freshly allocated one-byte marker, and hands that address to C as an
    [unsafe.Pointer].  Three pieces of the Go runtime take part and are
    modelled by their contracts:

    - interface values: a [sync.Map] key is an [interface{}], a pair of a
      dynamic type and a data word, and two keys are equal when both
      components are;
    - the allocator: a non-zero-size object gets an address that no live
      object has, every zero-size object gets the address of [zerobase];
    - the collector: it may reclaim any object the maps do not reference. *)

From Stdlib Require Import HexadecimalString HexadecimalN.
From stdpp Require Import base numbers strings list gmap sets fin_sets.

Local Open Scope N_scope.
Set Warnings "-register-all".

(** ** Go values *)

(** An address of the Go heap; [nil] is address zero. *)
Abbreviation addr := N (only parsing).

Definition nil_ptr : addr := 0.

(** The address the runtime returns for every zero-size allocation
    ([runtime.zerobase]). *)
Definition zerobase : addr := 1.

(** The values a client stores: what an [interface{}] argument of [New]
    can hold.  The registry never inspects them. *)
Inductive value :=
  | VNil                                   (* the nil interface *)
  | VBool (b : bool)
  | VInt (z : Z)
  | VString (s : string)
  | VPointer (p : addr)                    (* a reference, by identity *)
  | VStruct (fields : list value).

(** The types the package declares or uses for its keys. *)
Inductive gotype :=
  | Uint8
  | Struct (fields : list gotype).

Fixpoint Sizeof (t : gotype) : N :=
  match t with
  | Uint8 => 1
  | Struct fields => foldr (λ f acc, Sizeof f + acc) 0 fields
  end.

(** [type mapperKey struct { _ uint8 }] *)
Definition mapperKey : gotype := Struct [Uint8].

(** The dynamic type of an interface value used as a key: [*mapperKey]
    or [unsafe.Pointer]. *)
Inductive rtype :=
  | T_ptr_mapperKey
  | T_unsafe_Pointer.

Global Instance rtype_eq_dec : EqDecision rtype.
Proof. solve_decision. Defined.

Global Instance rtype_countable : Countable rtype.
Proof.
  apply (inj_countable'
           (λ t, match t with T_ptr_mapperKey => true | T_unsafe_Pointer => false end)
           (λ b : bool, if b then T_ptr_mapperKey else T_unsafe_Pointer)).
  by intros [].
Defined.

(** An interface value holding a pointer: dynamic type and data word. *)
Record eface := mk_eface { dyn_type : rtype; dyn_data : addr }.

Global Instance eface_eq_dec : EqDecision eface.
Proof. solve_decision. Defined.

Global Instance eface_countable : Countable eface.
Proof.
  apply (inj_countable' (λ e, (dyn_type e, dyn_data e))
                        (λ p, mk_eface p.1 p.2)).
  by intros [].
Defined.

(** Conversion of a [*mapperKey] to [interface{}]. *)
Definition iface_of_ptr_mapperKey (k : addr) : eface := mk_eface T_ptr_mapperKey k.

(** Conversion of an [unsafe.Pointer] to [interface{}]. *)
Definition iface_of_unsafe_Pointer (k : addr) : eface := mk_eface T_unsafe_Pointer k.

(** ** sync.Map *)

Module sync.

(** The contents of a [sync.Map]: a finite map from interface keys to
    values.  Key comparison is interface equality. *)
Abbreviation Map := (gmap eface value) (only parsing).

Definition Store (key : eface) (v : value) (sm : Map) : Map :=
  <[key := v]> sm.

(** [Load] returns the value stored for the key and [true], or the nil
    interface and [false] when there is none. *)
Definition Load (key : eface) (sm : Map) : value * bool :=
  match sm !! key with
  | Some v => (v, true)
  | None => (VNil, false)
  end.

Definition Delete (key : eface) (sm : Map) : Map :=
  delete key sm.

End sync.

(** ** The runtime: allocation and collection *)

(** [mallocgc size live]: the address of a new object of [size] bytes and
    the live set after the allocation. *)
Definition mallocgc (size : N) (live : gset addr) : addr * gset addr :=
  if size =? 0 then (zerobase, live)
  else
    let a := fresh ({[nil_ptr; zerobase]} ∪ live) in
    (a, {[a]} ∪ live).

(** [&T{}] *)
Definition newobject (t : gotype) (live : gset addr) : addr * gset addr :=
  mallocgc (Sizeof t) live.

(** [%p] of a pointer: [0x] and the address in lower-case hexadecimal. *)
Definition fmt_p (k : addr) : string :=
  String.append "0x" (NilZero.string_of_uint (N.to_hex_uint k)).

(** ** The package *)

(** [type Mapper struct { m sync.Map }] *)
Record Mapper := mk_Mapper { m : gmap eface value }.

(** The zero value of [Mapper]: an empty [sync.Map]. *)
Definition zero_Mapper : Mapper := mk_Mapper ∅.

(** The receivers of the methods: the address of the global [G]
    ([var G Mapper]) or of a separate instance a client declares. *)
Inductive MapperPtr :=
  | addr_G
  | addr_own.

Global Instance MapperPtr_eq_dec : EqDecision MapperPtr.
Proof. solve_decision. Defined.

(** The program state: the live heap objects and the two registries. *)
Record world := mk_world {
  live : gset addr;
  G : Mapper;
  own : Mapper
}.

Definition deref (mapper : MapperPtr) (w : world) : Mapper :=
  match mapper with
  | addr_G => G w
  | addr_own => own w
  end.

Definition assign (mapper : MapperPtr) (r : Mapper) (w : world) : world :=
  match mapper with
  | addr_G => mk_world (live w) r (own w)
  | addr_own => mk_world (live w) (G w) r
  end.

(** How a call ends: it returns, or it panics with an error value. *)
Inductive outcome (A : Type) :=
  | Return (a : A)
  | Panic (err : string).
Arguments Return {A} a.
Arguments Panic {A} err.

(** Calls run in the program state. *)
Definition M (A : Type) : Type := world → outcome A * world.

Definition ret {A} (a : A) : M A := λ w, (Return a, w).

Definition panic {A} (err : string) : M A := λ w, (Panic err, w).

Definition bind {A B} (c : M A) (k : A → M B) : M B :=
  λ w, match c w with
       | (Return a, w') => k a w'
       | (Panic err, w') => (Panic err, w')
       end.

Global Instance M_ret : MRet M := @ret.
Global Instance M_bind : MBind M := λ A B k c, bind c k.

(** [&mapperKey{}] *)
Definition new_mapperKey : M addr :=
  λ w, let '(k, live') := newobject mapperKey (live w) in
       (Return k, mk_world live' (G w) (own w)).

(** [mapper.m.Store(key, v)] *)
Definition m_Store (mapper : MapperPtr) (key : eface) (v : value) : M unit :=
  λ w, (Return tt, assign mapper (mk_Mapper (sync.Store key v (m (deref mapper w)))) w).

(** [mapper.m.Load(key)] *)
Definition m_Load (mapper : MapperPtr) (key : eface) : M (value * bool) :=
  λ w, (Return (sync.Load key (m (deref mapper w))), w).

(** [mapper.m.Delete(key)] *)
Definition m_Delete (mapper : MapperPtr) (key : eface) : M unit :=
  λ w, (Return tt, assign mapper (mk_Mapper (sync.Delete key (m (deref mapper w)))) w).

(** [fmt.Errorf("mapper: ptr not mapped: %p", k)] *)
Definition err_not_mapped (k : addr) : string :=
  String.append "mapper: ptr not mapped: " (fmt_p k).

(** [func (mapper *Mapper) New(v interface{}) unsafe.Pointer] *)
Definition New (mapper : MapperPtr) (v : value) : M addr :=
  k ← new_mapperKey;
  m_Store mapper (iface_of_ptr_mapperKey k) v;;
  mret k.

(** [func (mapper *Mapper) Get(k unsafe.Pointer) (v interface{})] *)
Definition Get (mapper : MapperPtr) (k : addr) : M value :=
  '(v, ok) ← m_Load mapper (iface_of_ptr_mapperKey k);
  if negb ok then panic (err_not_mapped k)
  else mret v.

(** [func (mapper *Mapper) Delete(k unsafe.Pointer)].  The body is
    [mapper.m.Delete(k)]: the argument is [k] as it came, so the key the
    map receives is an interface value of dynamic type [unsafe.Pointer],
    where [New] stored and [Get] looks up one of dynamic type
    [*mapperKey]. *)
Definition Delete (mapper : MapperPtr) (k : addr) : M unit :=
  m_Delete mapper (iface_of_unsafe_Pointer k).

(** ** Programs *)

(** The registries reference the objects whose addresses their keys
    hold, whatever the dynamic type of the key. *)
Definition roots (w : world) : gset addr :=
  set_map dyn_data (dom (m (G w))) ∪ set_map dyn_data (dom (m (own w))).

(** A collection: of the objects in [dead], those no registry references
    are reclaimed, and their addresses can be allocated again. *)
Definition GC (dead : gset addr) (w : world) : world :=
  mk_world (live w ∖ (dead ∖ roots w)) (G w) (own w).

(** What a client does, one step at a time. *)
Inductive call :=
  | call_New (mapper : MapperPtr) (v : value)
  | call_Get (mapper : MapperPtr) (k : addr)
  | call_Delete (mapper : MapperPtr) (k : addr)
  | call_GC (dead : gset addr).

Inductive reply :=
  | reply_New (out : outcome addr)
  | reply_Get (out : outcome value)
  | reply_Delete (out : outcome unit)
  | reply_GC.

(** One step.  A panic is recorded and the client goes on, as after a
    [recover]. *)
Definition step (c : call) (w : world) : reply * world :=
  match c with
  | call_New mapper v => let '(out, w') := New mapper v w in (reply_New out, w')
  | call_Get mapper k => let '(out, w') := Get mapper k w in (reply_Get out, w')
  | call_Delete mapper k => let '(out, w') := Delete mapper k w in (reply_Delete out, w')
  | call_GC dead => (reply_GC, GC dead w)
  end.

Fixpoint run (cs : list call) (w : world) : list (call * reply) * world :=
  match cs with
  | [] => ([], w)
  | c :: cs' =>
      let '(r, w') := step c w in
      let '(evs, w'') := run cs' w' in
      ((c, r) :: evs, w'')
  end.

(** The tokens that the calls of [New] on [mapper] returned, in order. *)
Fixpoint issued_by (mapper : MapperPtr) (evs : list (call * reply)) : list addr :=
  match evs with
  | [] => []
  | (call_New mapper' _, reply_New (Return t)) :: evs' =>
      if decide (mapper' = mapper) then t :: issued_by mapper evs'
      else issued_by mapper evs'
  | _ :: evs' => issued_by mapper evs'
  end.

(** The number of calls of [New] on [mapper] in a program. *)
Fixpoint calls_of_New (mapper : MapperPtr) (cs : list call) : nat :=
  match cs with
  | [] => 0%nat
  | call_New mapper' _ :: cs' =>
      if decide (mapper' = mapper) then S (calls_of_New mapper cs')
      else calls_of_New mapper cs'
  | _ :: cs' => calls_of_New mapper cs'
  end.

(** The state before any call: nothing allocated, both registries at
    their zero value. *)
Definition w0 : world := mk_world ∅ zero_Mapper zero_Mapper.

(** The invariant of the states the package reaches: every key is a
    [*mapperKey] and the marker it points to is live. *)
Definition wf (w : world) : Prop :=
  ∀ mapper key, is_Some (m (deref mapper w) !! key) →
    dyn_type key = T_ptr_mapperKey ∧ dyn_data key ∈ live w.

(** [k] is mapped by the registry at [mapper]: the lookup [Get] does
    finds a value. *)
Definition mapped (mapper : MapperPtr) (k : addr) (w : world) : Prop :=
  is_Some (m (deref mapper w) !! iface_of_ptr_mapperKey k).

(** The tokens that the calls of [New] on [mapper] returned, each with
    the value its call stored. *)
Fixpoint issued_with_value (mapper : MapperPtr) (evs : list (call * reply))
    : list (addr * value) :=
  match evs with
  | [] => []
  | (call_New mapper' v, reply_New (Return t)) :: evs' =>
      if decide (mapper' = mapper) then (t, v) :: issued_with_value mapper evs'
      else issued_with_value mapper evs'
  | _ :: evs' => issued_with_value mapper evs'
  end.

(** The registry a call is made on; a collection is made on none. *)
Definition call_target (c : call) : option MapperPtr :=
  match c with
  | call_New mapper _ | call_Get mapper _ | call_Delete mapper _ => Some mapper
  | call_GC _ => None
  end.

(** ** The methods in closed form *)

Lemma New_eq mapper v w :
  let a := fresh ({[nil_ptr; zerobase]} ∪ live w) in
  New mapper v w =
    (Return a,
     assign mapper (mk_Mapper (<[iface_of_ptr_mapperKey a := v]> (m (deref mapper w))))
       (mk_world ({[a]} ∪ live w) (G w) (own w))).
Proof. by destruct mapper. Qed.

Lemma Get_eq mapper k w :
  Get mapper k w =
    (match m (deref mapper w) !! iface_of_ptr_mapperKey k with
     | Some v => Return v
     | None => Panic (err_not_mapped k)
     end, w).
Proof.
  unfold Get, mbind, M_bind, bind, m_Load, sync.Load.
  by destruct (m (deref mapper w) !! iface_of_ptr_mapperKey k).
Qed.

Lemma Delete_eq mapper k w :
  Delete mapper k w =
    (Return tt,
     assign mapper (mk_Mapper (delete (iface_of_unsafe_Pointer k) (m (deref mapper w)))) w).
Proof. reflexivity. Qed.

Lemma deref_assign mapper r w : deref mapper (assign mapper r w) = r.
Proof. by destruct mapper. Qed.

Lemma deref_assign_ne mapper mapper' r w :
  mapper ≠ mapper' → deref mapper' (assign mapper r w) = deref mapper' w.
Proof. by destruct mapper, mapper'. Qed.

Lemma live_assign mapper r w : live (assign mapper r w) = live w.
Proof. by destruct mapper. Qed.

Lemma assign_deref mapper w : assign mapper (mk_Mapper (m (deref mapper w))) w = w.
Proof. by destruct mapper, w as [? [] []]. Qed.

(** ** Interface keys *)

(** A pointer converted to [interface{}] as an [unsafe.Pointer] never
    equals a pointer converted as a [*mapperKey], not even the same
    address: the dynamic types differ. *)
Lemma iface_type_mismatch k k' : iface_of_unsafe_Pointer k ≠ iface_of_ptr_mapperKey k'.
Proof. done. Qed.

(** ** The allocator *)

Lemma fresh_not_live (L : gset addr) : fresh ({[nil_ptr; zerobase]} ∪ L) ∉ L.
Proof.
  pose proof (is_fresh ({[nil_ptr; zerobase]} ∪ L)) as Hfresh. set_solver.
Qed.

Lemma mallocgc_fresh size (L : gset addr) :
  size ≠ 0 →
  (fst (mallocgc size L) ∉ L) ∧
  snd (mallocgc size L) = {[ fst (mallocgc size L) ]} ∪ L.
Proof.
  intros Hsize. unfold mallocgc. apply N.eqb_neq in Hsize. rewrite Hsize. simpl.
  split; [apply fresh_not_live | done].
Qed.

Lemma mallocgc_zero_size (L : gset addr) : mallocgc 0 L = (zerobase, L).
Proof. reflexivity. Qed.

Lemma Sizeof_mapperKey : Sizeof mapperKey = 1.
Proof. reflexivity. Qed.

(** ** What a step keeps *)

Lemma deref_live_irrel mapper L w :
  deref mapper (mk_world L (G w) (own w)) = deref mapper w.
Proof. by destruct mapper. Qed.

Lemma key_in_roots mapper k w :
  is_Some (m (deref mapper w) !! k) → dyn_data k ∈ roots w.
Proof.
  intros Hk%elem_of_dom. unfold roots.
  destruct mapper; simpl in Hk; set_solver.
Qed.

Lemma step_New mapper v w :
  step (call_New mapper v) w = (reply_New (New mapper v w).1, (New mapper v w).2).
Proof. unfold step. by destruct (New mapper v w). Qed.

Lemma step_Get mapper k w :
  step (call_Get mapper k) w = (reply_Get (Get mapper k w).1, w).
Proof. unfold step. by rewrite Get_eq. Qed.

Lemma step_Delete mapper k w :
  step (call_Delete mapper k) w = (reply_Delete (Return tt), (Delete mapper k w).2).
Proof. reflexivity. Qed.

(** A mapping under a [*mapperKey] key whose marker is live survives
    every step, with its value. *)
Lemma step_keeps mapper k v c w :
  k ∈ live w →
  m (deref mapper w) !! iface_of_ptr_mapperKey k = Some v →
  k ∈ live (step c w).2 ∧
  m (deref mapper (step c w).2) !! iface_of_ptr_mapperKey k = Some v.
Proof.
  intros Hlive Hk. destruct c as [mapper' v'|mapper' k'|mapper' k'|dead].
  - rewrite step_New, New_eq. simpl. rewrite live_assign. simpl. split; [set_solver|].
    destruct (decide (mapper' = mapper)) as [->|Hne].
    + rewrite deref_assign. simpl. rewrite lookup_insert_ne.
      * done.
      * intros [= Heq]. apply (fresh_not_live (live w)). by rewrite Heq.
    + rewrite deref_assign_ne by done. by rewrite deref_live_irrel.
  - by rewrite step_Get.
  - rewrite step_Delete, Delete_eq. simpl. rewrite live_assign. split; [done|].
    destruct (decide (mapper' = mapper)) as [->|Hne].
    + rewrite deref_assign. simpl. by rewrite lookup_delete_ne.
    + by rewrite deref_assign_ne.
  - simpl. split.
    + assert (k ∈ roots w) as Hroot
        by (apply (key_in_roots mapper (iface_of_ptr_mapperKey k)); eauto).
      apply elem_of_difference. split; [done|].
      by intros [_ Hn]%elem_of_difference.
    + unfold GC. by rewrite deref_live_irrel.
Qed.

Lemma run_cons c cs w :
  run (c :: cs) w =
    (((c, (step c w).1) :: (run cs (step c w).2).1), (run cs (step c w).2).2).
Proof.
  simpl. destruct (step c w) as [r w']. simpl. by destruct (run cs w').
Qed.

Lemma run_keeps mapper k v cs w :
  k ∈ live w →
  m (deref mapper w) !! iface_of_ptr_mapperKey k = Some v →
  k ∈ live (run cs w).2 ∧
  m (deref mapper (run cs w).2) !! iface_of_ptr_mapperKey k = Some v.
Proof.
  revert w. induction cs as [|c cs IH]; intros w Hlive Hk; [done|].
  rewrite run_cons. simpl.
  destruct (step_keeps mapper k v c w Hlive Hk) as [Hlive' Hk'].
  by apply IH.
Qed.

(** What [New] establishes. *)
Lemma New_post mapper v w :
  ∃ t w', New mapper v w = (Return t, w') ∧
    (t ∉ live w) ∧ t ∈ live w' ∧ t ≠ nil_ptr ∧
    m (deref mapper w') !! iface_of_ptr_mapperKey t = Some v.
Proof.
  eexists _, _. split; [apply New_eq|]. simpl.
  rewrite live_assign, deref_assign. simpl.
  split; [apply fresh_not_live|]. split; [set_solver|].
  split; [|by rewrite lookup_insert_eq].
  pose proof (is_fresh ({[nil_ptr; zerobase]} ∪ live w)). set_solver.
Qed.

(** ** Tokens over a run *)

(** A token that is mapped and whose marker is live is never returned by
    a later [New], on either registry. *)
Lemma run_never_reissues mapper' mapper k v cs w :
  k ∈ live w →
  m (deref mapper' w) !! iface_of_ptr_mapperKey k = Some v →
  k ∉ issued_by mapper (run cs w).1.
Proof.
  revert w. induction cs as [|c cs IH]; intros w Hlive Hk; [apply not_elem_of_nil|].
  rewrite run_cons.
  destruct (step_keeps mapper' k v c w Hlive Hk) as [Hlive' Hk'].
  specialize (IH _ Hlive' Hk').
  destruct c as [mapper0 v0|mapper0 k0|mapper0 k0|dead]; try done.
  rewrite step_New in *. rewrite New_eq in *. simpl in *.
  case_decide; [|done].
  apply not_elem_of_cons. split; [|done].
  intros ->. by apply (fresh_not_live (live w)).
Qed.

Lemma run_issued_NoDup mapper cs w : NoDup (issued_by mapper (run cs w).1).
Proof.
  revert w. induction cs as [|c cs IH]; intros w; [constructor|].
  rewrite run_cons.
  destruct c as [mapper0 v0|mapper0 k0|mapper0 k0|dead]; try apply IH.
  destruct (New_post mapper0 v0 w) as (t & w' & HNew & _ & Hlive & _ & Hk).
  rewrite step_New, HNew. simpl.
  case_decide; [|apply IH].
  apply NoDup_cons. split; [|apply IH].
  by apply (run_never_reissues mapper0 mapper t v0).
Qed.

(** Every call of [New] returns, so [issued_by] has one token for each. *)
Lemma issued_by_length mapper cs w :
  length (issued_by mapper (run cs w).1) = calls_of_New mapper cs.
Proof.
  revert w. induction cs as [|c cs IH]; intros w; [done|].
  rewrite run_cons.
  destruct c as [mapper0 v0|mapper0 k0|mapper0 k0|dead]; try apply IH.
  rewrite step_New, New_eq. simpl.
  case_decide; simpl; by rewrite IH.
Qed.

(** With an empty struct for the marker, every call would return the
    address of [zerobase]. *)
Lemma empty_marker_not_distinct (L : gset addr) :
  newobject (Struct []) L = (zerobase, L) ∧
  newobject (Struct []) (newobject (Struct []) L).2 = (zerobase, L).
Proof. done. Qed.

(** ** The invariant *)

Lemma wf_w0 : wf w0.
Proof. intros [] key [v Hv]; simpl in Hv; by rewrite lookup_empty in Hv. Qed.

Lemma step_wf c w : wf w → wf (step c w).2.
Proof.
  intros Hwf. destruct c as [mapper0 v0|mapper0 k0|mapper0 k0|dead].
  - rewrite step_New, New_eq. simpl. intros mapper key.
    rewrite live_assign. simpl.
    destruct (decide (mapper0 = mapper)) as [->|Hne].
    + rewrite deref_assign. simpl.
      intros [<-|Hold]%lookup_insert_is_Some'; simpl; [set_solver|].
      destruct (Hwf mapper key Hold). set_solver.
    + rewrite deref_assign_ne, deref_live_irrel by done. intros Hold.
      destruct (Hwf mapper key Hold). set_solver.
  - by rewrite step_Get.
  - rewrite step_Delete, Delete_eq. simpl. intros mapper key.
    rewrite live_assign.
    destruct (decide (mapper0 = mapper)) as [->|Hne].
    + rewrite deref_assign. simpl. intros [_ Hold]%lookup_delete_is_Some.
      exact (Hwf _ _ Hold).
    + rewrite deref_assign_ne by done. exact (Hwf _ _).
  - simpl. intros mapper key. unfold GC at 1. rewrite deref_live_irrel. intros Hold.
    destruct (Hwf mapper key Hold) as [Hty Hlive]. split; [done|]. simpl.
    apply elem_of_difference. split; [done|].
    intros [_ Hn]%elem_of_difference. apply Hn. by apply (key_in_roots mapper).
Qed.

Lemma run_wf cs w : wf w → wf (run cs w).2.
Proof.
  revert w. induction cs as [|c cs IH]; intros w Hwf; [done|].
  rewrite run_cons. simpl. by apply IH, step_wf.
Qed.

(** In a well-formed state no key has the dynamic type [unsafe.Pointer]. *)
Lemma wf_no_unsafe_Pointer_key mapper k w :
  wf w → m (deref mapper w) !! iface_of_unsafe_Pointer k = None.
Proof.
  intros Hwf. destruct (m (deref mapper w) !! iface_of_unsafe_Pointer k) eqn:E; [|done].
  by destruct (Hwf mapper (iface_of_unsafe_Pointer k)) as [? _]; [eauto|].
Qed.

(** ** The diagnostic of [Get] *)

Lemma to_hex_uint_nonnil (n : N) : N.to_hex_uint n ≠ Hexadecimal.Nil.
Proof. destruct n; [done|]. apply HexadecimalPos.Unsigned.to_uint_nonnil. Qed.

Lemma hex_string_inj k1 k2 :
  NilZero.string_of_uint (N.to_hex_uint k1) = NilZero.string_of_uint (N.to_hex_uint k2) →
  k1 = k2.
Proof.
  intros Heq. apply Unsigned.to_uint_inj.
  pose proof (NilZero.usu _ (to_hex_uint_nonnil k1)) as H1.
  pose proof (NilZero.usu _ (to_hex_uint_nonnil k2)) as H2.
  rewrite Heq in H1. congruence.
Qed.

Lemma append_prefix_inj (p s1 s2 : string) :
  String.append p s1 = String.append p s2 → s1 = s2.
Proof. induction p as [|c p IH]; simpl; [done|]. intros [= Heq]. by apply IH. Qed.

Lemma fmt_p_inj k1 k2 : fmt_p k1 = fmt_p k2 → k1 = k2.
Proof. intros Heq%append_prefix_inj. by apply hex_string_inj. Qed.

(** The error value names the pointer: two pointers never share it. *)
Lemma err_not_mapped_inj k1 k2 : err_not_mapped k1 = err_not_mapped k2 → k1 = k2.
Proof.
  intros Heq%append_prefix_inj. by apply fmt_p_inj.
Qed.

(** [Get] on a key the map does not hold panics, with the error value of
    that pointer, and returns nothing. *)
Lemma Get_unmapped_panics mapper k w :
  ¬ mapped mapper k w → Get mapper k w = (Panic (err_not_mapped k), w).
Proof.
  unfold mapped. rewrite Get_eq, <-eq_None_not_Some. by intros ->.
Qed.

Lemma Get_mapped_returns mapper k v w :
  m (deref mapper w) !! iface_of_ptr_mapperKey k = Some v →
  Get mapper k w = (Return v, w).
Proof. rewrite Get_eq. by intros ->. Qed.

(** ** Other registries, other tokens *)

(** A token one registry issued in a well-formed state is never mapped by
    the other registry. *)
Lemma run_foreign_token_unmapped mapper mapper' k v cs w :
  mapper ≠ mapper' →
  k ∈ live w →
  m (deref mapper w) !! iface_of_ptr_mapperKey k = Some v →
  m (deref mapper' w) !! iface_of_ptr_mapperKey k = None →
  m (deref mapper' (run cs w).2) !! iface_of_ptr_mapperKey k = None.
Proof.
  intros Hne. revert w. induction cs as [|c cs IH]; intros w Hlive Hk Hnone; [done|].
  rewrite run_cons. simpl.
  destruct (step_keeps mapper k v c w Hlive Hk) as [Hlive' Hk'].
  apply IH; [done..|]. clear IH Hlive' Hk'.
  destruct c as [mapper0 v0|mapper0 k0|mapper0 k0|dead].
  - rewrite step_New, New_eq. simpl.
    destruct (decide (mapper0 = mapper')) as [->|Hne0].
    + rewrite deref_assign. simpl. apply lookup_insert_None. split; [done|].
      intros [= Heq]. apply (fresh_not_live (live w)). by rewrite Heq.
    + by rewrite deref_assign_ne, deref_live_irrel.
  - by rewrite step_Get.
  - rewrite step_Delete, Delete_eq. simpl.
    destruct (decide (mapper0 = mapper')) as [->|Hne0].
    + rewrite deref_assign. simpl. apply lookup_delete_None. by right.
    + by rewrite deref_assign_ne.
  - simpl. unfold GC. by rewrite deref_live_irrel.
Qed.

Lemma Get_foreign_token_panics mapper mapper' v w t w1 cs :
  wf w → mapper ≠ mapper' →
  New mapper v w = (Return t, w1) →
  Get mapper' t (run cs w1).2 = (Panic (err_not_mapped t), (run cs w1).2).
Proof.
  intros Hwf Hne HNew.
  destruct (New_post mapper v w) as (t' & w' & HNew' & Hfresh & Hlive & _ & Hk).
  rewrite HNew in HNew'. injection HNew' as <- <-.
  apply Get_unmapped_panics. unfold mapped. rewrite <-eq_None_not_Some.
  apply (run_foreign_token_unmapped mapper mapper' t v); [done..|].
  assert (deref mapper' w1 = deref mapper' w) as ->.
  { rewrite New_eq in HNew. injection HNew as _ <-.
    by rewrite deref_assign_ne, deref_live_irrel. }
  apply eq_None_not_Some. intros Hsome.
  by destruct (Hwf mapper' _ Hsome) as [_ Hin].
Qed.

(** A pointer the registry did not map at the start and never returned
    from [New] is not mapped at the end. *)
Lemma run_never_issued_unmapped mapper k cs w :
  ¬ mapped mapper k w →
  k ∉ issued_by mapper (run cs w).1 →
  ¬ mapped mapper k (run cs w).2.
Proof.
  unfold mapped. revert w. induction cs as [|c cs IH]; intros w Hnone; [done|].
  rewrite run_cons. simpl. rewrite <-eq_None_not_Some in Hnone.
  destruct c as [mapper0 v0|mapper0 k0|mapper0 k0|dead].
  - rewrite step_New, New_eq. simpl.
    destruct (decide (mapper0 = mapper)) as [->|Hne0].
    + intros [Hk Hrest]%not_elem_of_cons. apply IH; [|done].
      rewrite deref_assign. simpl. rewrite <-eq_None_not_Some.
      apply lookup_insert_None. split; [done|].
      intros [= Heq]. by apply Hk.
    + intros Hrest. apply IH; [|done].
      by rewrite deref_assign_ne, deref_live_irrel, <-eq_None_not_Some.
  - rewrite step_Get. simpl. apply IH. by rewrite <-eq_None_not_Some.
  - rewrite step_Delete, Delete_eq. simpl. apply IH.
    rewrite <-eq_None_not_Some.
    destruct (decide (mapper0 = mapper)) as [->|Hne0].
    + rewrite deref_assign. simpl. apply lookup_delete_None. by right.
    + by rewrite deref_assign_ne.
  - simpl. apply IH. unfold GC. by rewrite deref_live_irrel, <-eq_None_not_Some.
Qed.

(** [Delete] leaves every lookup of [Get] as it was, on both registries. *)
Lemma Delete_frame mapper mapper' k k' w :
  (Get mapper' k' (Delete mapper k w).2).1 = (Get mapper' k' w).1.
Proof.
  rewrite !Get_eq, Delete_eq. simpl.
  destruct (decide (mapper = mapper')) as [->|Hne].
  - rewrite deref_assign. simpl. by rewrite lookup_delete_ne.
  - by rewrite deref_assign_ne.
Qed.

(** ** The properties of the registry *)

(** C1, as the code has it: [Delete] asks the map to remove the
    [unsafe.Pointer] key, the mapping [New] stored under the [*mapperKey]
    key stays, and a [Get] of the token after its [Delete] returns the
    stored value instead of panicking. *)
Theorem Get_after_Delete_still_returns mapper v w :
  ∃ t w1 w2,
    New mapper v w = (Return t, w1) ∧
    Delete mapper t w1 = (Return tt, w2) ∧
    mapped mapper t w2 ∧
    Get mapper t w2 = (Return v, w2).
Proof.
  destruct (New_post mapper v w) as (t & w1 & HNew & _ & _ & _ & Hk).
  exists t, w1, (Delete mapper t w1).2. split; [done|]. split; [done|].
  assert (m (deref mapper (Delete mapper t w1).2) !! iface_of_ptr_mapperKey t = Some v)
    as Hk'.
  { rewrite Delete_eq. simpl. rewrite deref_assign. simpl. by rewrite lookup_delete_ne. }
  split; [by eexists|]. by apply Get_mapped_returns.
Qed.

(** C2: round trip.  The token [t] that [New] returned for [v] gives
    back [v] itself from [Get], right away and after any further calls on
    either registry and any collections, as long as no call deletes [t]. *)
Theorem Get_New_round_trip mapper v w t w1 cs :
  New mapper v w = (Return t, w1) →
  call_Delete mapper t ∉ cs →
  Get mapper t (run cs w1).2 = (Return v, (run cs w1).2).
Proof.
  intros HNew _.
  destruct (New_post mapper v w) as (t' & w' & HNew' & _ & Hlive & _ & Hk).
  rewrite HNew in HNew'. injection HNew' as <- <-.
  apply Get_mapped_returns. by apply run_keeps.
Qed.

Lemma Get_New_round_trip_witness :
  New addr_G (VStruct [VNil; VString "alpha"]) w0 =
    (Return 2, (New addr_G (VStruct [VNil; VString "alpha"]) w0).2) ∧
  Get addr_G 2
    (run [call_New addr_G (VStruct [VNil; VString "alpha"]); call_Delete addr_own 2;
          call_GC {[2; 3]}; call_Get addr_G 9]
       (New addr_G (VStruct [VNil; VString "alpha"]) w0).2).2 =
  (Return (VStruct [VNil; VString "alpha"]),
   (run [call_New addr_G (VStruct [VNil; VString "alpha"]); call_Delete addr_own 2;
         call_GC {[2; 3]}; call_Get addr_G 9]
      (New addr_G (VStruct [VNil; VString "alpha"]) w0).2).2).
Proof.
  split; [reflexivity|].
  apply (Get_New_round_trip addr_G (VStruct [VNil; VString "alpha"]) w0 2).
  - reflexivity.
  - intros Hin. repeat (apply elem_of_cons in Hin as [Hin|Hin]; [discriminate Hin|]).
    by apply elem_of_nil in Hin.
Defined.

(** C3: the tokens that the calls of [New] on one registry return are
    pairwise distinct, whatever the values stored and whatever other
    calls and collections come between; the marker is one byte, not
    empty; and two calls in a row with the same value give two tokens. *)
Theorem New_tokens_distinct mapper cs w :
  NoDup (issued_by mapper (run cs w).1) ∧
  length (issued_by mapper (run cs w).1) = calls_of_New mapper cs ∧
  Sizeof mapperKey ≠ 0 ∧
  (∀ v, ∃ t1 w1 t2 w2,
     New mapper v w = (Return t1, w1) ∧ New mapper v w1 = (Return t2, w2) ∧ t1 ≠ t2).
Proof.
  split; [apply run_issued_NoDup|]. split; [apply issued_by_length|]. split; [done|].
  intros v.
  destruct (New_post mapper v w) as (t1 & w1 & HNew1 & _ & Hlive1 & _ & _).
  destruct (New_post mapper v w1) as (t2 & w2 & HNew2 & Hfresh2 & _ & _ & _).
  exists t1, w1, t2, w2. split; [done|]. split; [done|]. by intros ->.
Qed.

(** C5: in the states the package reaches, [Delete] of a token that is
    not mapped returns without a panic and leaves the state as it was; and
    for every token the second of two [Delete]s returns without a panic
    and changes nothing. *)
Theorem Delete_redundant_is_noop mapper k w :
  wf w →
  (¬ mapped mapper k w → Delete mapper k w = (Return tt, w)) ∧
  (∃ w1, Delete mapper k w = (Return tt, w1) ∧ Delete mapper k w1 = (Return tt, w1)).
Proof.
  intros Hwf.
  assert (Delete mapper k w = (Return tt, w)) as Hnoop.
  { rewrite Delete_eq. f_equal.
    rewrite delete_id by by apply wf_no_unsafe_Pointer_key.
    apply assign_deref. }
  split; [done|]. exists w. by rewrite Hnoop.
Qed.

Lemma Delete_redundant_is_noop_witness :
  let w := (run [call_New addr_G (VString "alpha")] w0).2 in
  (¬ mapped addr_G 7 w → Delete addr_G 7 w = (Return tt, w)) ∧
  (∃ w1, Delete addr_G 7 w = (Return tt, w1) ∧ Delete addr_G 7 w1 = (Return tt, w1)).
Proof.
  apply (Delete_redundant_is_noop addr_G 7).
  apply (run_wf [call_New addr_G (VString "alpha")] w0), wf_w0.
Defined.

(** C7: [Get] leaves the state exactly as it found it, whether it
    returns or panics. *)
Theorem Get_leaves_state mapper k w : (Get mapper k w).2 = w.
Proof.
  unfold Get, mbind, M_bind, bind, m_Load.
  by destruct (sync.Load _ _) as [v []].
Qed.

(** C9: a mapping whose value is nil is a mapping.  [Get] of the token of
    [New(nil)] returns nil; [Get] returns exactly when the map holds the
    key, whatever the value, and panics exactly when it does not. *)
Theorem Get_nil_value_is_mapped mapper w :
  (∃ t w1, New mapper VNil w = (Return t, w1) ∧ Get mapper t w1 = (Return VNil, w1)) ∧
  (∀ k v, m (deref mapper w) !! iface_of_ptr_mapperKey k = Some v ↔
          Get mapper k w = (Return v, w)) ∧
  (∀ k, m (deref mapper w) !! iface_of_ptr_mapperKey k = None ↔
        ∃ err, Get mapper k w = (Panic err, w)) ∧
  (∀ key sm, sync.Load key (sync.Store key VNil sm) = (VNil, true)) ∧
  (∀ key sm, sync.Load key (sync.Delete key sm) = (VNil, false)).
Proof.
  split.
  { destruct (New_post mapper VNil w) as (t & w1 & HNew & _ & _ & _ & Hk).
    exists t, w1. split; [done|]. by apply Get_mapped_returns. }
  split; [|split; [|split]].
  3: { intros key sm. unfold sync.Load, sync.Store. by rewrite lookup_insert_eq. }
  3: { intros key sm. unfold sync.Load, sync.Delete. by rewrite lookup_delete_eq. }
  - intros k v. rewrite Get_eq.
    destruct (m (deref mapper w) !! iface_of_ptr_mapperKey k);
      split; intros Heq; by simplify_eq.
  - intros k. rewrite Get_eq.
    destruct (m (deref mapper w) !! iface_of_ptr_mapperKey k);
      split; [done|by intros [? [=]]|by eexists|done].
Qed.

(** C10, as the code has it: [G] starts as the zero value of [Mapper],
    and on a registry at its zero value [Get] of any pointer panics as
    unmapped and [New] maps the value so that [Get] returns it, with no
    constructor called; but [Delete] of that token removes nothing there
    either: it returns, the token is still mapped, and [Get] returns the
    value again instead of panicking. *)
Theorem zero_Mapper_Delete_keeps_mapping mapper w k v :
  G w0 = zero_Mapper ∧
  deref mapper (assign mapper zero_Mapper w) = zero_Mapper ∧
  Get mapper k (assign mapper zero_Mapper w)
    = (Panic (err_not_mapped k), assign mapper zero_Mapper w) ∧
  (∃ t w1 w2,
     New mapper v (assign mapper zero_Mapper w) = (Return t, w1) ∧
     Get mapper t w1 = (Return v, w1) ∧
     Delete mapper t w1 = (Return tt, w2) ∧
     mapped mapper t w2 ∧
     Get mapper t w2 = (Return v, w2)).
Proof.
  split; [done|]. split; [apply deref_assign|]. split.
  - rewrite Get_eq, deref_assign. simpl. by rewrite lookup_empty.
  - destruct (New_post mapper v (assign mapper zero_Mapper w))
      as (t & w1 & HNew & _ & _ & _ & Hk).
    exists t, w1, (Delete mapper t w1).2.
    split; [done|]. split; [by apply Get_mapped_returns|]. split; [done|].
    assert (m (deref mapper (Delete mapper t w1).2) !! iface_of_ptr_mapperKey t = Some v)
      as Hk'.
    { rewrite Delete_eq. simpl. rewrite deref_assign. simpl.
      by rewrite lookup_delete_ne. }
    split; [by eexists|]. by apply Get_mapped_returns.
Qed.

(** C4, as the code has it, on the token that was deleted: the global
    registry maps ["alpha"], the token is deleted, and [Get] of it returns
    ["alpha"], where an unmapped token would panic. *)
Theorem Get_deleted_token_does_not_panic :
  (run [call_New addr_G (VString "alpha"); call_Delete addr_G 2; call_Get addr_G 2] w0).1 =
    [(call_New addr_G (VString "alpha"), reply_New (Return 2));
     (call_Delete addr_G 2, reply_Delete (Return tt));
     (call_Get addr_G 2, reply_Get (Return (VString "alpha")))] ∧
  (Get addr_G 2 w0).1 = Panic "mapper: ptr not mapped: 0x2".
Proof. split; reflexivity. Qed.

(** C6, as the code has it, on the example: two tokens for ["alpha"] are
    distinct, [Get] of the first returns ["alpha"], the first is deleted,
    [Get] of the second still returns ["alpha"], and [Get] of the first
    returns ["alpha"] too instead of panicking. *)
Theorem end_to_end_example :
  (run [call_New addr_G (VString "alpha"); call_New addr_G (VString "alpha");
        call_Get addr_G 2; call_Delete addr_G 2;
        call_Get addr_G 2; call_Get addr_G 3] w0).1 =
    [(call_New addr_G (VString "alpha"), reply_New (Return 2));
     (call_New addr_G (VString "alpha"), reply_New (Return 3));
     (call_Get addr_G 2, reply_Get (Return (VString "alpha")));
     (call_Delete addr_G 2, reply_Delete (Return tt));
     (call_Get addr_G 2, reply_Get (Return (VString "alpha")));
     (call_Get addr_G 3, reply_Get (Return (VString "alpha")))].
Proof. reflexivity. Qed.

(** ** Further properties of the methods *)

Lemma New_fresh_key mapper w :
  wf w →
  m (deref mapper w) !! iface_of_ptr_mapperKey (fresh ({[nil_ptr; zerobase]} ∪ live w))
    = None.
Proof.
  intros Hwf. apply eq_None_not_Some. intros Hsome.
  destruct (Hwf mapper _ Hsome) as [_ Hin]. by apply fresh_not_live in Hin.
Qed.

Lemma issued_by_not_nil mapper cs w : nil_ptr ∉ issued_by mapper (run cs w).1.
Proof.
  revert w. induction cs as [|c cs IH]; intros w; [apply not_elem_of_nil|].
  rewrite run_cons.
  destruct c as [mapper0 v0|mapper0 k0|mapper0 k0|dead]; try apply IH.
  destruct (New_post mapper0 v0 w) as (t & w' & HNew & _ & _ & Hnil & _).
  rewrite step_New, HNew. simpl.
  case_decide; [|apply IH].
  apply not_elem_of_cons. split; [done|apply IH].
Qed.

(** X1: the error value of a panicking [Get] determines the pointer it
    was called with: two calls that panic with the same error value, on
    any registries in any states, were given the same pointer. *)
Theorem Get_panic_names_pointer mapper1 mapper2 k1 k2 w1 w2 err :
  (Get mapper1 k1 w1).1 = Panic err →
  (Get mapper2 k2 w2).1 = Panic err →
  k1 = k2.
Proof.
  rewrite !Get_eq. simpl.
  destruct (m (deref mapper1 w1) !! _); [done|].
  destruct (m (deref mapper2 w2) !! _); [done|].
  intros H1 H2. apply err_not_mapped_inj. congruence.
Qed.

Lemma Get_panic_names_pointer_witness :
  (Get addr_G 5 w0).1 = Panic "mapper: ptr not mapped: 0x5" ∧
  (Get addr_own 5 (New addr_G VNil w0).2).1 = Panic "mapper: ptr not mapped: 0x5" ∧
  5 = 5.
Proof.
  split; [reflexivity|]. split; [reflexivity|].
  apply (Get_panic_names_pointer addr_G addr_own 5 5 w0 (New addr_G VNil w0).2
           "mapper: ptr not mapped: 0x5"); reflexivity.
Defined.

(** X2: a token that one registry issued at any point of a run from a
    well-formed state is not mapped by the other registry at the end of
    the run: [Get] on the other registry panics with the error value of
    that token. *)
Theorem foreign_token_Get_panics mapper mapper' t cs w :
  wf w → mapper ≠ mapper' →
  t ∈ issued_by mapper (run cs w).1 →
  Get mapper' t (run cs w).2 = (Panic (err_not_mapped t), (run cs w).2).
Proof.
  intros Hwf Hne. revert w Hwf.
  induction cs as [|c cs IH]; intros w Hwf; [by intros ?%elem_of_nil|].
  rewrite run_cons. pose proof (step_wf c w Hwf) as Hwf'.
  destruct c as [mapper0 v0|mapper0 k0|mapper0 k0|dead]; try by apply IH.
  destruct (New_post mapper0 v0 w) as (a & w' & HNew & _).
  rewrite step_New, HNew in *. simpl in *.
  case_decide as Hm; [|by apply IH].
  intros [->|Hin]%elem_of_cons; [|by apply IH].
  subst mapper0. by apply (Get_foreign_token_panics mapper mapper' v0 w).
Qed.

Lemma foreign_token_Get_panics_witness :
  Get addr_own 2
    (run [call_New addr_G (VInt 7); call_New addr_own VNil; call_Delete addr_own 2] w0).2 =
  (Panic (err_not_mapped 2),
   (run [call_New addr_G (VInt 7); call_New addr_own VNil; call_Delete addr_own 2] w0).2).
Proof.
  apply (foreign_token_Get_panics addr_G addr_own 2).
  - apply wf_w0.
  - discriminate.
  - apply elem_of_cons. by left.
Defined.

(** X3: a pointer that a registry does not map at the start of a run and
    that no [New] on that registry returns during the run is not mapped at
    its end: [Get] panics with the error value of that pointer. *)
Theorem never_issued_Get_panics mapper k cs w :
  ¬ mapped mapper k w →
  k ∉ issued_by mapper (run cs w).1 →
  Get mapper k (run cs w).2 = (Panic (err_not_mapped k), (run cs w).2).
Proof.
  intros Hnot Hnever. apply Get_unmapped_panics.
  by apply run_never_issued_unmapped.
Qed.

Lemma never_issued_Get_panics_witness :
  Get addr_G 9 (run [call_New addr_G (VInt 7); call_New addr_own VNil] w0).2 =
  (Panic (err_not_mapped 9),
   (run [call_New addr_G (VInt 7); call_New addr_own VNil] w0).2).
Proof.
  apply (never_issued_Get_panics addr_G 9).
  - intros [v Hv]. discriminate Hv.
  - intros Hin. apply elem_of_cons in Hin as [Hin|Hin]; [discriminate Hin|].
    by apply elem_of_nil in Hin.
Defined.

(** X4: at the end of a run every token that [New] returned on a registry
    during the run gives, from [Get] on that registry, the value of its
    own call of [New], whatever calls and collections followed it. *)
Theorem issued_tokens_keep_their_values mapper t v cs w :
  (t, v) ∈ issued_with_value mapper (run cs w).1 →
  Get mapper t (run cs w).2 = (Return v, (run cs w).2).
Proof.
  revert w. induction cs as [|c cs IH]; intros w; [by intros ?%elem_of_nil|].
  rewrite run_cons.
  destruct c as [mapper0 v0|mapper0 k0|mapper0 k0|dead]; try by apply IH.
  destruct (New_post mapper0 v0 w) as (a & w' & HNew & _ & Hlive & _ & Hk).
  rewrite step_New, HNew. simpl.
  case_decide as Hm; [|by apply IH].
  intros [[= -> ->]|Hin]%elem_of_cons; [|by apply IH].
  subst mapper0. apply Get_mapped_returns. by apply run_keeps.
Qed.

Lemma issued_tokens_keep_their_values_witness :
  Get addr_G 2
    (run [call_New addr_G (VInt 7); call_New addr_G (VInt 8); call_GC {[2; 3]}] w0).2 =
  (Return (VInt 7),
   (run [call_New addr_G (VInt 7); call_New addr_G (VInt 8); call_GC {[2; 3]}] w0).2).
Proof.
  apply (issued_tokens_keep_their_values addr_G 2 (VInt 7)).
  apply elem_of_cons. by left.
Defined.

(** X5: a token identifies its registry.  Over any run, no token is
    returned by [New] on both registries. *)
Theorem token_identifies_registry mapper mapper' t cs w :
  t ∈ issued_by mapper (run cs w).1 →
  t ∈ issued_by mapper' (run cs w).1 →
  mapper = mapper'.
Proof.
  revert w. induction cs as [|c cs IH]; intros w; [by intros ?%elem_of_nil|].
  rewrite run_cons.
  destruct c as [mapper0 v0|mapper0 k0|mapper0 k0|dead]; try by apply IH.
  destruct (New_post mapper0 v0 w) as (a & w' & HNew & _ & Hlive & _ & Hk).
  rewrite step_New, HNew. simpl.
  pose proof (run_never_reissues mapper0 mapper a v0 cs w' Hlive Hk) as Hnot.
  pose proof (run_never_reissues mapper0 mapper' a v0 cs w' Hlive Hk) as Hnot'.
  repeat case_decide; subst; try by apply IH.
  - done.
  - intros [->|Hin]%elem_of_cons Hin'; [done|by apply (IH w')].
  - intros Hin [->|Hin']%elem_of_cons; [done|by apply (IH w')].
Qed.

Lemma token_identifies_registry_witness :
  2 ∈ issued_by addr_G (run [call_New addr_G VNil; call_New addr_own VNil] w0).1 ∧
  addr_G = addr_G.
Proof.
  split; [apply elem_of_cons; by left|].
  apply (token_identifies_registry addr_G addr_G 2
           [call_New addr_G VNil; call_New addr_own VNil] w0);
    apply elem_of_cons; by left.
Defined.

(** X6: the invariant of the registries.  After any run from a
    well-formed state every key of either map is a [*mapperKey], and the
    marker it points to is still live: no collection reclaims the marker of
    a mapping. *)
Theorem keys_are_live_markers mapper key cs w :
  wf w →
  is_Some (m (deref mapper (run cs w).2) !! key) →
  dyn_type key = T_ptr_mapperKey ∧ dyn_data key ∈ live (run cs w).2.
Proof. intros Hwf. exact (run_wf cs w Hwf mapper key). Qed.

Lemma keys_are_live_markers_witness :
  dyn_type (iface_of_ptr_mapperKey 2) = T_ptr_mapperKey ∧
  dyn_data (iface_of_ptr_mapperKey 2) ∈
    live (run [call_New addr_G VNil; call_Delete addr_G 2; call_GC {[2]}] w0).2.
Proof.
  apply (keys_are_live_markers addr_G (iface_of_ptr_mapperKey 2)
           [call_New addr_G VNil; call_Delete addr_G 2; call_GC {[2]}] w0).
  - apply wf_w0.
  - exists VNil. reflexivity.
Defined.

(** X7: in a well-formed state [New] never overwrites.  The token it
    returns was not a key of the registry, the map after the call is the
    map before with that one entry added, so it has one entry more, and the
    other registry is as it was. *)
Theorem New_adds_one_entry mapper v w t w1 :
  wf w →
  New mapper v w = (Return t, w1) →
  m (deref mapper w) !! iface_of_ptr_mapperKey t = None ∧
  m (deref mapper w1) = <[iface_of_ptr_mapperKey t := v]> (m (deref mapper w)) ∧
  size (m (deref mapper w1)) = S (size (m (deref mapper w))) ∧
  (∀ mapper', mapper ≠ mapper' → deref mapper' w1 = deref mapper' w).
Proof.
  intros Hwf. rewrite New_eq. intros [= <- <-].
  pose proof (New_fresh_key mapper w Hwf) as Hnone.
  rewrite deref_assign. simpl.
  split; [done|]. split; [done|]. split; [by apply map_size_insert_None|].
  intros mapper' Hne. by rewrite deref_assign_ne, deref_live_irrel.
Qed.

Lemma New_adds_one_entry_witness :
  size (m (deref addr_G (New addr_G (VInt 8) (New addr_G (VInt 7) w0).2).2)) =
  S (size (m (deref addr_G (New addr_G (VInt 7) w0).2))).
Proof.
  apply (New_adds_one_entry addr_G (VInt 8) (New addr_G (VInt 7) w0).2 3).
  - apply (run_wf [call_New addr_G (VInt 7)] w0), wf_w0.
  - reflexivity.
Defined.

Lemma step_size mapper c w :
  wf w →
  size (m (deref mapper (step c w).2)) =
  (size (m (deref mapper w)) + calls_of_New mapper [c])%nat.
Proof.
  intros Hwf. destruct c as [mapper0 v0|mapper0 k0|mapper0 k0|dead].
  - rewrite step_New, New_eq. simpl. case_decide as Hm.
    + subst. rewrite deref_assign. simpl.
      rewrite map_size_insert_None by by apply New_fresh_key. lia.
    + rewrite deref_assign_ne, deref_live_irrel by done. lia.
  - rewrite step_Get. simpl. lia.
  - rewrite step_Delete, Delete_eq. simpl.
    destruct (decide (mapper0 = mapper)) as [->|Hne].
    + rewrite deref_assign. simpl.
      rewrite delete_id by by apply wf_no_unsafe_Pointer_key. lia.
    + rewrite deref_assign_ne by done. lia.
  - simpl. unfold GC. rewrite deref_live_irrel. lia.
Qed.

Lemma calls_of_New_cons mapper c cs :
  calls_of_New mapper (c :: cs) = (calls_of_New mapper [c] + calls_of_New mapper cs)%nat.
Proof. destruct c; simpl; try done. by case_decide. Qed.

(** X8: the number of entries of a registry after a run from a
    well-formed state is the number before plus the number of calls of
    [New] on that registry in the run; no call in the run, [Delete]
    included, makes a map smaller. *)
Theorem registry_size_after_run mapper cs w :
  wf w →
  size (m (deref mapper (run cs w).2)) =
  (size (m (deref mapper w)) + calls_of_New mapper cs)%nat.
Proof.
  revert w. induction cs as [|c cs IH]; intros w Hwf; [simpl; lia|].
  rewrite run_cons, calls_of_New_cons. cbn [snd].
  rewrite IH by by apply step_wf. rewrite step_size by done. lia.
Qed.

Lemma registry_size_after_run_witness :
  size (m (deref addr_G
    (run [call_New addr_G VNil; call_New addr_own VNil; call_Delete addr_G 2;
          call_New addr_G VNil] w0).2)) =
  (size (m (deref addr_G w0)) +
   calls_of_New addr_G [call_New addr_G VNil; call_New addr_own VNil;
                        call_Delete addr_G 2; call_New addr_G VNil])%nat.
Proof. apply (registry_size_after_run addr_G), wf_w0. Defined.

Lemma step_other_registry mapper' c w :
  call_target c ≠ Some mapper' →
  deref mapper' (step c w).2 = deref mapper' w.
Proof.
  intros Hc. destruct c as [mapper0 v0|mapper0 k0|mapper0 k0|dead]; simpl in Hc.
  - rewrite step_New, New_eq. simpl.
    rewrite deref_assign_ne, deref_live_irrel by congruence. done.
  - by rewrite step_Get.
  - rewrite step_Delete, Delete_eq. simpl. by rewrite deref_assign_ne by congruence.
  - simpl. unfold GC. by rewrite deref_live_irrel.
Qed.

(** X9: calls on one registry do not touch the other.  A run in which no
    call is made on a registry leaves the map of that registry exactly as
    it was, whatever is created, looked up, deleted or collected
    elsewhere. *)
Theorem other_registry_untouched mapper' cs w :
  Forall (λ c, call_target c ≠ Some mapper') cs →
  deref mapper' (run cs w).2 = deref mapper' w.
Proof.
  intros Hcs. revert w. induction Hcs as [|c cs Hc Hcs IH]; intros w; [done|].
  rewrite run_cons. simpl. rewrite IH. by apply step_other_registry.
Qed.

Lemma other_registry_untouched_witness :
  deref addr_own
    (run [call_New addr_G VNil; call_Delete addr_G 2; call_GC {[2; 5]}; call_Get addr_G 2]
       (New addr_own (VInt 7) w0).2).2 =
  deref addr_own (New addr_own (VInt 7) w0).2.
Proof.
  apply (other_registry_untouched addr_own).
  repeat (apply Forall_cons; split; [discriminate|]). apply Forall_nil_2.
Defined.

(** X10: the nil pointer is never a token.  Over any run from the initial
    state no call of [New] returns nil, and [Get] of nil panics at the
    end with the error value of pointer zero. *)
Theorem Get_nil_pointer_panics mapper cs :
  (nil_ptr ∉ issued_by mapper (run cs w0).1) ∧
  Get mapper nil_ptr (run cs w0).2 =
    (Panic "mapper: ptr not mapped: 0x0", (run cs w0).2).
Proof.
  split; [apply issued_by_not_nil|].
  change "mapper: ptr not mapped: 0x0"%string with (err_not_mapped nil_ptr).
  apply Get_unmapped_panics, run_never_issued_unmapped; [|apply issued_by_not_nil].
  intros [v Hv]. by destruct mapper.
Qed.
